(** * Entitlements migration of Cadence: the type rewrite, its value-level
      counterpart and the generated [PrimitiveAccess] stringer.

    The development follows the Go sources file by file:
    - [sema]          the parts of the type algebra the migration inspects;
    - [entitlements]  migrations/entitlements/migration.go;
    - [interpreter]   the value walk that [EntitlementsMigration.Migrate]
                      delegates to;
    - [ast]           runtime/ast/primitiveaccess_string.go. *)

From Stdlib Require Import ZArith List String Ascii Bool Lia.
From Stdlib Require Import Numbers.DecimalString Numbers.DecimalPos Numbers.DecimalN
  Numbers.DecimalZ.
Import ListNotations.

Set Warnings "-register-all".

Local Open Scope Z_scope.

(* ================================================================== *)
(** * Package sema: the type algebra                                   *)
(* ================================================================== *)

Module sema.

(** The migration only switches on the types of package [sema] and
    rebuilds them through their constructors.  They are given here as
    the closed variant sets of the data model, under the names
    migration.go uses. *)

Definition TypeID := string.
Definition EntitlementID := string.

(** [*EntitlementOrderedSet]: an insertion-ordered set of entitlements. *)
Definition EntitlementOrderedSet := list EntitlementID.

Definition Len (s : EntitlementOrderedSet) : Z := Z.of_nat (List.length s).

Inductive EntitlementSetKind : Set :=
| Conjunction
| Disjunction.

(** Modelled from the spec: [sema.Access], the authorization of a
    reference type, whose declaration is missing: unauthorized, or a set
    of entitlements combined conjunctively or disjunctively. *)
Inductive Access : Set :=
| UnauthorizedAccess
| EntitlementSetAccess (SetKind : EntitlementSetKind)
                       (Entitlements : EntitlementOrderedSet).

(** Modelled from the spec: [sema.Type], whose implementations are
    missing.  Every implementation that [ConvertToEntitledType] does not
    name in its type switch is a [LeafType], identified by its type ID. *)
Inductive SemaType : Set :=
| ReferenceType (Authorization : Access) (Ty : SemaType)
| OptionalType (Ty : SemaType)
| CapabilityType (BorrowType : SemaType)
| VariableSizedType (Ty : SemaType)
| ConstantSizedType (Ty : SemaType) (Size : Z)
| DictionaryType (KeyType ValueType : SemaType)
| LeafType (id : TypeID).

(** The constructors [sema.NewXType(memoryGauge, ...)]; the gauge is [nil]
    at every call site of the migration and only meters memory. *)
Definition NewReferenceType (auth : Access) (ty : SemaType) : SemaType :=
  ReferenceType auth ty.
Definition NewOptionalType (ty : SemaType) : SemaType := OptionalType ty.
Definition NewCapabilityType (borrowType : SemaType) : SemaType :=
  CapabilityType borrowType.
Definition NewVariableSizedType (ty : SemaType) : SemaType :=
  VariableSizedType ty.
Definition NewConstantSizedType (ty : SemaType) (size : Z) : SemaType :=
  ConstantSizedType ty size.
Definition NewDictionaryType (keyType valueType : SemaType) : SemaType :=
  DictionaryType keyType valueType.

(** The top-level variant of a type, i.e. the dynamic type a Go type
    switch dispatches on. *)
Inductive Variant : Set :=
| VReference | VOptional | VCapability | VVariableSized
| VConstantSized (size : Z) | VDictionary | VLeaf (id : TypeID).

Definition variantOf (t : SemaType) : Variant :=
  match t with
  | ReferenceType _ _ => VReference
  | OptionalType _ => VOptional
  | CapabilityType _ => VCapability
  | VariableSizedType _ => VVariableSized
  | ConstantSizedType _ n => VConstantSized n
  | DictionaryType _ _ => VDictionary
  | LeafType id => VLeaf id
  end.

(** The tree of a type with every authorization blanked out. *)
Fixpoint eraseAuthorization (t : SemaType) : SemaType :=
  match t with
  | ReferenceType _ ty => ReferenceType UnauthorizedAccess (eraseAuthorization ty)
  | OptionalType ty => OptionalType (eraseAuthorization ty)
  | CapabilityType ty => CapabilityType (eraseAuthorization ty)
  | VariableSizedType ty => VariableSizedType (eraseAuthorization ty)
  | ConstantSizedType ty n => ConstantSizedType (eraseAuthorization ty) n
  | DictionaryType k v =>
      DictionaryType (eraseAuthorization k) (eraseAuthorization v)
  | LeafType id => LeafType id
  end.

(** All authorizations of a type, outermost first, left to right. *)
Fixpoint authorizations (t : SemaType) : list Access :=
  match t with
  | ReferenceType a ty => a :: authorizations ty
  | OptionalType ty | CapabilityType ty
  | VariableSizedType ty | ConstantSizedType ty _ => authorizations ty
  | DictionaryType k v => authorizations k ++ authorizations v
  | LeafType _ => []
  end.

(** Immediate components of a type, and the nesting depth. *)
Definition components (t : SemaType) : list SemaType :=
  match t with
  | ReferenceType _ ty | OptionalType ty | CapabilityType ty
  | VariableSizedType ty | ConstantSizedType ty _ => [ty]
  | DictionaryType k v => [k; v]
  | LeafType _ => []
  end.

Fixpoint depth (t : SemaType) : nat :=
  match t with
  | ReferenceType _ ty | OptionalType ty | CapabilityType ty
  | VariableSizedType ty | ConstantSizedType ty _ => S (depth ty)
  | DictionaryType k v => S (Nat.max (depth k) (depth v))
  | LeafType _ => O
  end.

(** The data-model invariant on authorizations: an entitlement set is
    never empty. *)
Definition accessWellFormed (a : Access) : Prop :=
  match a with
  | UnauthorizedAccess => True
  | EntitlementSetAccess _ s => 0 < Len s
  end.

(** How one authorization of a type may relate to the authorization at
    the same place of the migrated type: it is kept as it is, or an
    unauthorized one is replaced by a non-empty conjunction. *)
Definition keptOrEntitled (before after : Access) : Prop :=
  after = before \/
  (before = UnauthorizedAccess /\
   exists s, after = EntitlementSetAccess Conjunction s /\ 0 < Len s).

End sema.

(* ================================================================== *)
(** * Package interpreter: the value walk behind [Migrate]             *)
(* ================================================================== *)

Module interpreter.
Import sema.

Definition SlotID := Z.
Definition Address := Z.

Inductive CompositeKind : Set :=
| Struct | Resource | Contract | Enum | Event.

(** Modelled from the spec: [interpreter.Value], whose implementations
    are missing.  The variants and their fields are those of the data
    model, in which every value carries its governing static type: the
    borrow type of a capability, and for a reference the type it was
    declared with, from which its authorization is recomputed. *)
Inductive Value : Type :=
| Composite (kind : CompositeKind) (fields : list (string * Value))
            (identity : SlotID)
| Optional (inner : option Value)
| Capability (address : Address) (borrowType : SemaType)
| Array (elems : list Value) (isResourceKinded : bool)
| Dictionary (entries : list (Value * Value)) (isResourceKinded : bool)
| Reference (target : SlotID) (authorization : Access)
            (declaredType : SemaType)
| Primitive (repr : string).

Inductive MigrationError : Set :=
| TypeConversionError
| ValueShapeMismatch
| ResourceLinearityViolation
| CapabilityResolutionError
| MigrationFatalError.

Inductive Result (A : Type) : Type :=
| Ok (a : A)
| Err (e : MigrationError).
Arguments Ok {A} a.
Arguments Err {A} e.

(** The identity-tracking context: already-migrated values by slot. *)
Definition Memo := list (SlotID * Value).

Record Interpreter : Type := { migrated : Memo }.

Fixpoint lookupSlot (id : SlotID) (memo : Memo) : option Value :=
  match memo with
  | [] => None
  | (id', v) :: memo => if id =? id' then Some v else lookupSlot id memo
  end.

(** A walk threads the memo table and may fail. *)
Definition Walk (A : Type) : Type := Memo -> Result (A * Memo).

Definition ret {A} (a : A) : Walk A := fun memo => Ok (a, memo).
Definition fail {A} (e : MigrationError) : Walk A := fun _ => Err e.
Definition bind {A B} (m : Walk A) (k : A -> Walk B) : Walk B :=
  fun memo =>
    match m memo with
    | Ok (a, memo') => k a memo'
    | Err e => Err e
    end.
Definition remember (id : SlotID) (v : Value) : Walk unit :=
  fun memo => Ok (tt, (id, v) :: memo).
Definition recall (id : SlotID) : Walk (option Value) :=
  fun memo => Ok (lookupSlot id memo, memo).

Notation "x <- m ;; k" := (bind m (fun x => k))
  (at level 61, m at next level, right associativity).

Definition EntitlementSetKind_eqb (k1 k2 : EntitlementSetKind) : bool :=
  match k1, k2 with
  | Conjunction, Conjunction | Disjunction, Disjunction => true
  | _, _ => false
  end.

Fixpoint EntitlementOrderedSet_eqb (s1 s2 : EntitlementOrderedSet) : bool :=
  match s1, s2 with
  | [], [] => true
  | e1 :: s1, e2 :: s2 => String.eqb e1 e2 && EntitlementOrderedSet_eqb s1 s2
  | _, _ => false
  end.

Definition Access_eqb (a1 a2 : Access) : bool :=
  match a1, a2 with
  | UnauthorizedAccess, UnauthorizedAccess => true
  | EntitlementSetAccess k1 s1, EntitlementSetAccess k2 s2 =>
      EntitlementSetKind_eqb k1 k2 && EntitlementOrderedSet_eqb s1 s2
  | _, _ => false
  end.

Section Walk.

Variable converter : SemaType -> SemaType.

(** Modelled from the spec: [Interpreter.ConvertValueToEntitlements],
    the method of package [interpreter] that migration.go calls and
    whose body is missing.  The traversal, variant by variant:
    - a composite is looked up by its slot and the cached result reused;
      otherwise each field is migrated in its slot, in order;
    - [Some] is migrated and rewrapped, [None] is unchanged;
    - a capability has its borrow type converted, the address untouched;
    - array elements and dictionary values are migrated in place; a
      dictionary key is migrated only when it is a reference, and a key
      whose migrated form would differ is a linearity violation;
    - a reference has its authorization recomputed from its declared
      static type, the target left as it is; a declared type that is not
      a reference type is a shape mismatch;
    - a primitive is unchanged. *)
Fixpoint ConvertValueToEntitlements (v : Value) : Walk Value :=
  match v with
  | Composite kind fields identity =>
      cached <- recall identity ;;
      match cached with
      | Some v' => ret v'
      | None =>
          fields' <-
            (fix migrateFields (fs : list (string * Value))
               : Walk (list (string * Value)) :=
               match fs with
               | [] => ret []
               | (name, fv) :: fs =>
                   fv' <- ConvertValueToEntitlements fv ;;
                   fs' <- migrateFields fs ;;
                   ret ((name, fv') :: fs')
               end) fields ;;
          let v' := Composite kind fields' identity in
          _ <- remember identity v' ;;
          ret v'
      end
  | Optional None => ret v
  | Optional (Some inner) =>
      inner' <- ConvertValueToEntitlements inner ;;
      ret (Optional (Some inner'))
  | Capability address borrowType =>
      ret (Capability address (converter borrowType))
  | Array elems isResourceKinded =>
      elems' <-
        (fix migrateElems (es : list Value) : Walk (list Value) :=
           match es with
           | [] => ret []
           | e :: es =>
               e' <- ConvertValueToEntitlements e ;;
               es' <- migrateElems es ;;
               ret (e' :: es')
           end) elems ;;
      ret (Array elems' isResourceKinded)
  | Dictionary entries isResourceKinded =>
      entries' <-
        (fix migrateEntries (kvs : list (Value * Value))
           : Walk (list (Value * Value)) :=
           match kvs with
           | [] => ret []
           | (key, value) :: kvs =>
               key' <-
                 match key with
                 | Reference _ authorization _ =>
                     migratedKey <- ConvertValueToEntitlements key ;;
                     match migratedKey with
                     | Reference _ authorization' _ =>
                         if Access_eqb authorization authorization'
                         then ret key
                         else fail ResourceLinearityViolation
                     | _ => fail ValueShapeMismatch
                     end
                 | _ => ret key
                 end ;;
               value' <- ConvertValueToEntitlements value ;;
               kvs' <- migrateEntries kvs ;;
               ret ((key', value') :: kvs')
           end) entries ;;
      ret (Dictionary entries' isResourceKinded)
  | Reference target _ declaredType =>
      match converter declaredType with
      | ReferenceType authorization' _ =>
          ret (Reference target authorization' declaredType)
      | _ => fail ValueShapeMismatch
      end
  | Primitive _ => ret v
  end.

End Walk.

End interpreter.


(* ================================================================== *)
(** * Package entitlements: migrations/entitlements/migration.go       *)
(* ================================================================== *)

Module entitlements.
Import sema.

Section Migration.

(** The type assertion [innerType.(sema.EntitlementSupportingType)]
    followed by [SupportedEntitlements()]: [None] when the type does not
    implement the interface, otherwise the set the method returns.  The
    query belongs to the type checker and is a parameter here. *)
Variable SupportedEntitlements : SemaType -> option EntitlementOrderedSet.

Fixpoint ConvertToEntitledType (t : SemaType) : SemaType :=
  match t with
  | ReferenceType Authorization Ty =>
      match Authorization with
      | UnauthorizedAccess =>
          let innerType := ConvertToEntitledType Ty in
          let auth :=
            match SupportedEntitlements innerType with
            | Some supportedEntitlements =>
                if Len supportedEntitlements >? 0
                then EntitlementSetAccess Conjunction supportedEntitlements
                else UnauthorizedAccess
            | None => UnauthorizedAccess
            end in
          NewReferenceType auth innerType
      | _ => t
      end
  | OptionalType Ty => NewOptionalType (ConvertToEntitledType Ty)
  | CapabilityType BorrowType =>
      NewCapabilityType (ConvertToEntitledType BorrowType)
  | VariableSizedType Ty => NewVariableSizedType (ConvertToEntitledType Ty)
  | ConstantSizedType Ty Size =>
      NewConstantSizedType (ConvertToEntitledType Ty) Size
  | DictionaryType KeyType ValueType =>
      NewDictionaryType (ConvertToEntitledType KeyType)
                        (ConvertToEntitledType ValueType)
  | _ => t
  end.

(** The authorization lines 53-62 compute for a migrated inner type. *)
Definition entitledAuthorization (innerType : SemaType) : Access :=
  match SupportedEntitlements innerType with
  | Some supportedEntitlements =>
      if Len supportedEntitlements >? 0
      then EntitlementSetAccess Conjunction supportedEntitlements
      else UnauthorizedAccess
  | None => UnauthorizedAccess
  end.

(** The recursive calls of the Go function: [calls t t'] when the body,
    run on [t], invokes itself on [t']. *)
Inductive calls : SemaType -> SemaType -> Prop :=
| calls_reference Ty :
    calls (ReferenceType UnauthorizedAccess Ty) Ty
| calls_optional Ty : calls (OptionalType Ty) Ty
| calls_capability BorrowType : calls (CapabilityType BorrowType) BorrowType
| calls_variable Ty : calls (VariableSizedType Ty) Ty
| calls_constant Ty Size : calls (ConstantSizedType Ty Size) Ty
| calls_dictionary_key KeyType ValueType :
    calls (DictionaryType KeyType ValueType) KeyType
| calls_dictionary_value KeyType ValueType :
    calls (DictionaryType KeyType ValueType) ValueType.

(** The same body run with a bound on the call depth, as a Go runtime
    with a finite stack would: [None] is stack exhaustion. *)
Fixpoint ConvertToEntitledType_bounded (stack : nat) (t : SemaType)
  : option SemaType :=
  match stack with
  | O => None
  | S stack =>
      let recur := ConvertToEntitledType_bounded stack in
      match t with
      | ReferenceType Authorization Ty =>
          match Authorization with
          | UnauthorizedAccess =>
              match recur Ty with
              | Some innerType =>
                  Some (NewReferenceType (entitledAuthorization innerType)
                                         innerType)
              | None => None
              end
          | _ => Some t
          end
      | OptionalType Ty => option_map NewOptionalType (recur Ty)
      | CapabilityType BorrowType =>
          option_map NewCapabilityType (recur BorrowType)
      | VariableSizedType Ty => option_map NewVariableSizedType (recur Ty)
      | ConstantSizedType Ty Size =>
          option_map (fun ty => NewConstantSizedType ty Size) (recur Ty)
      | DictionaryType KeyType ValueType =>
          match recur KeyType, recur ValueType with
          | Some k, Some v => Some (NewDictionaryType k v)
          | _, _ => None
          end
      | _ => Some t
      end
  end.

(** The number of nested recursive calls the body makes on [t]: the
    descent follows the arms of the switch and stops at a leaf and at a
    reference that is already entitled. *)
Fixpoint callDepth (t : SemaType) : nat :=
  match t with
  | ReferenceType Authorization Ty =>
      match Authorization with
      | UnauthorizedAccess => S (callDepth Ty)
      | _ => O
      end
  | OptionalType Ty | CapabilityType Ty
  | VariableSizedType Ty | ConstantSizedType Ty _ => S (callDepth Ty)
  | DictionaryType KeyType ValueType =>
      S (Nat.max (callDepth KeyType) (callDepth ValueType))
  | _ => O
  end.

Definition isUnauthorized (a : Access) : bool :=
  match a with
  | UnauthorizedAccess => true
  | _ => false
  end.

(** A type the migration has nothing left to do on: wherever the switch
    would reach an unauthorized reference, the referenced type supports
    no entitlement.  What lies under an entitled reference is not
    looked at, as the function does not look at it. *)
Fixpoint fullyEntitled (t : SemaType) : bool :=
  match t with
  | ReferenceType Authorization Ty =>
      match Authorization with
      | UnauthorizedAccess =>
          fullyEntitled Ty && isUnauthorized (entitledAuthorization Ty)
      | _ => true
      end
  | OptionalType Ty | CapabilityType Ty
  | VariableSizedType Ty | ConstantSizedType Ty _ => fullyEntitled Ty
  | DictionaryType KeyType ValueType =>
      fullyEntitled KeyType && fullyEntitled ValueType
  | _ => true
  end.

(** [EntitlementsMigration]: the migration object, holding the interpreter
    whose identity table the walk consults and extends. *)
Record EntitlementsMigration : Type :=
  { Interpreter_ : interpreter.Interpreter }.

Definition NewEntitlementsMigration (inter : interpreter.Interpreter)
  : EntitlementsMigration :=
  {| Interpreter_ := inter |}.

Definition Name (_ : EntitlementsMigration) : string :=
  "EntitlementsMigration".

(** [func (mig EntitlementsMigration) Migrate(value) (newValue)]: the
    interpreter's walk, with [ConvertToEntitledType] as the converter.
    The Go code updates the interpreter in place; here the updated
    interpreter is returned next to the new value. *)
Definition Migrate (mig : EntitlementsMigration) (value : interpreter.Value)
  : interpreter.Result (interpreter.Value * interpreter.Interpreter) :=
  match
    interpreter.ConvertValueToEntitlements ConvertToEntitledType value
      (interpreter.migrated (Interpreter_ mig))
  with
  | interpreter.Ok (newValue, memo) =>
      interpreter.Ok (newValue, {| interpreter.migrated := memo |})
  | interpreter.Err e => interpreter.Err e
  end.

End Migration.

End entitlements.

(* ================================================================== *)
(** * Package strconv (Go standard library): [FormatInt]               *)
(* ================================================================== *)

Module strconv.

Local Open Scope string_scope.

Definition digits : string := "0123456789abcdefghijklmnopqrstuvwxyz".

(** [digits[d]] *)
Definition digit (d : Z) : ascii :=
  match String.get (Z.to_nat d) digits with
  | Some c => c
  | None => "000"%char
  end.

(** The loop of [formatBits]: digits are written from the least
    significant one, right to left, in front of what is already there.
    The buffer of the Go function holds 65 bytes, which bounds the
    number of rounds. *)
Fixpoint formatBits (rounds : nat) (u base : Z) (buf : string) : string :=
  match rounds with
  | O => buf
  | S rounds =>
      if (u >=? base)%Z
      then formatBits rounds (u / base) base (String (digit (u mod base)) buf)
      else String (digit u) buf
  end.

(** [FormatInt(i int64, base int) string] *)
Definition FormatInt (i : Z) (base : Z) : string :=
  if (i <? 0)%Z
  then "-" ++ formatBits 65 (- i) base ""
  else formatBits 65 i base "".

(** The decimal digits of a number as the standard library's numeral
    type has them, least significant digit first; used to relate the
    loop above to the library's printer. *)
Definition dcons (d : Z) (rest : Decimal.uint) : Decimal.uint :=
  match d with
  | 0 => Decimal.D0 rest
  | 1 => Decimal.D1 rest
  | 2 => Decimal.D2 rest
  | 3 => Decimal.D3 rest
  | 4 => Decimal.D4 rest
  | 5 => Decimal.D5 rest
  | 6 => Decimal.D6 rest
  | 7 => Decimal.D7 rest
  | 8 => Decimal.D8 rest
  | _ => Decimal.D9 rest
  end%Z.

Fixpoint littleEndian (rounds : nat) (u : Z) : Decimal.uint :=
  match rounds with
  | O => Decimal.Nil
  | S rounds =>
      if (u >=? 10)%Z
      then dcons (u mod 10) (littleEndian rounds (u / 10))
      else dcons u Decimal.Nil
  end.

End strconv.

(* ================================================================== *)
(** * Package ast: runtime/ast/primitiveaccess_string.go               *)
(* ================================================================== *)

Module ast.

Local Open Scope string_scope.

(** The constants, as the compile-time check [func _()] pins them down:
    [x[C-n]] with [x] of length one compiles only when [C = n]. *)
Definition AccessNotSpecified : Z := 0.
Definition AccessNone : Z := 1.
Definition AccessSelf : Z := 2.
Definition AccessContract : Z := 3.
Definition AccessAccount : Z := 4.
Definition AccessAll : Z := 5.
Definition AccessPubSettableLegacy : Z := 6.

Definition _PrimitiveAccess_name : string :=
  "AccessNotSpecifiedAccessNoneAccessSelfAccessContractAccessAccountAccessAllAccessPubSettableLegacy".

Definition _PrimitiveAccess_index : list Z :=
  [0; 18; 28; 38; 52; 65; 74; 97].

(** Go's [a[i]] on an array: a run-time panic ([None]) out of range. *)
Definition index (a : list Z) (i : Z) : option Z :=
  if ((0 <=? i) && (i <? Z.of_nat (List.length a)))%Z
  then nth_error a (Z.to_nat i)
  else None.

(** Go's [s[lo:hi]] on a string: a run-time panic ([None]) unless
    [0 <= lo <= hi <= len(s)]. *)
Definition slice (s : string) (lo hi : Z) : option string :=
  if ((0 <=? lo) && (lo <=? hi) && (hi <=? Z.of_nat (String.length s)))%Z
  then Some (substring (Z.to_nat lo) (Z.to_nat (hi - lo)) s)
  else None.

(** Conversion [int64(x)] of an integer value: two's complement wrap. *)
Definition int64 (x : Z) : Z := (x + 2 ^ 63) mod 2 ^ 64 - 2 ^ 63.

Section Stringer.

(** [PrimitiveAccess] is declared outside this file.  The generated
    guard has no [i < 0] test, the form stringer emits for unsigned
    types, so a value is a number in [0, 2^bits) for the width [bits] of
    the underlying unsigned integer type, and [i+1] wraps at that width. *)
Variable bits : Z.

Definition inRange (i : Z) : Prop := 0 <= i < 2 ^ bits.

Definition PrimitiveAccess (x : Z) : Z := x mod 2 ^ bits.

(** [func (i PrimitiveAccess) String() string]; [None] is a panic. *)
Definition PrimitiveAccess_String (i : Z) : option string :=
  if (i >=? PrimitiveAccess (Z.of_nat (List.length _PrimitiveAccess_index) - 1))%Z
  then Some ("PrimitiveAccess(" ++ strconv.FormatInt (int64 i) 10 ++ ")")
  else
    match index _PrimitiveAccess_index i,
          index _PrimitiveAccess_index (PrimitiveAccess (i + 1)) with
    | Some lo, Some hi => slice _PrimitiveAccess_name lo hi
    | _, _ => None
    end.

End Stringer.

(** The decimal numeral of an integer, as the standard library of Rocq
    prints it. *)
Definition decimal (i : Z) : string :=
  NilEmpty.string_of_int (Z.to_int i).

End ast.

(* ================================================================== *)
(** * Concrete types and values used in examples                       *)
(* ================================================================== *)

Module demo.
Import sema interpreter.

Local Open Scope string_scope.

(** A type checker in which [T] supports [E1] and [E2], [U] implements
    the interface but supports nothing, and no other type implements
    it. *)
Definition supported (t : SemaType) : option EntitlementOrderedSet :=
  match t with
  | LeafType id =>
      if String.eqb id "T" then Some ["E1"; "E2"]
      else if String.eqb id "U" then Some []
      else None
  | _ => None
  end.

Definition T : SemaType := LeafType "T".
Definition U : SemaType := LeafType "U".
Definition K : SemaType := LeafType "String".

Definition E1E2 : Access := EntitlementSetAccess Conjunction ["E1"; "E2"].

Definition refT : SemaType := ReferenceType UnauthorizedAccess T.

Definition emptyInterpreter : Interpreter := {| migrated := [] |}.

(** A type checker of a program that declares no entitlements. *)
Definition noEntitlements (_ : SemaType) : option EntitlementOrderedSet :=
  None.

Definition mig : entitlements.EntitlementsMigration :=
  entitlements.NewEntitlementsMigration emptyInterpreter.

End demo.

(* ================================================================== *)
(** * Properties of the type migrator                                  *)
(* ================================================================== *)

Section TypeMigrator.
Import sema entitlements.

Variable SupportedEntitlements : SemaType -> option EntitlementOrderedSet.

Local Abbreviation convert := (ConvertToEntitledType SupportedEntitlements).
Local Abbreviation entitled := (entitledAuthorization SupportedEntitlements).
Local Abbreviation bounded :=
  (ConvertToEntitledType_bounded SupportedEntitlements).

(** ** Unfolding equations, one per arm of the switch *)

Lemma convert_unauthorized Ty :
  convert (ReferenceType UnauthorizedAccess Ty) =
  ReferenceType (entitled (convert Ty)) (convert Ty).
Proof. reflexivity. Qed.

Lemma convert_authorized SetKind Entitlements Ty :
  convert (ReferenceType (EntitlementSetAccess SetKind Entitlements) Ty) =
  ReferenceType (EntitlementSetAccess SetKind Entitlements) Ty.
Proof. reflexivity. Qed.

Lemma Len_pos_iff (s : EntitlementOrderedSet) :
  (Len s >? 0) = true <-> s <> [].
Proof.
  unfold Len. destruct s as [|e s]; cbn [List.length].
  - split; [discriminate | congruence].
  - split; [discriminate | intros _; apply Z.gtb_lt; lia].
Qed.

Lemma entitled_cases innerType :
  entitled innerType =
  match SupportedEntitlements innerType with
  | Some (e :: s) => EntitlementSetAccess Conjunction (e :: s)
  | _ => UnauthorizedAccess
  end.
Proof.
  unfold entitledAuthorization.
  destruct (SupportedEntitlements innerType) as [[|e s]|]; reflexivity.
Qed.

Lemma entitled_kept_or_entitled innerType :
  keptOrEntitled UnauthorizedAccess (entitled innerType).
Proof.
  rewrite entitled_cases.
  destruct (SupportedEntitlements innerType) as [[|e s]|];
    try (left; reflexivity).
  right; split; [reflexivity|].
  exists (e :: s); split; [reflexivity|].
  unfold Len; cbn [List.length]; lia.
Qed.

(** C1: an unauthorized reference is rebuilt around the migrated inner
    type; its authorization is the conjunction of the entitlements the
    migrated inner type supports when that set is non-empty, and stays
    unauthorized when the set is empty or the migrated inner type does
    not support entitlements at all. *)
Theorem ConvertToEntitledType_unauthorized_reference (inner : SemaType) :
  convert (ReferenceType UnauthorizedAccess inner) =
  ReferenceType
    match SupportedEntitlements (convert inner) with
    | Some (e :: s) => EntitlementSetAccess Conjunction (e :: s)
    | Some [] => UnauthorizedAccess
    | None => UnauthorizedAccess
    end
    (convert inner).
Proof.
  rewrite convert_unauthorized, entitled_cases.
  destruct (SupportedEntitlements (convert inner)) as [[|e s]|]; reflexivity.
Qed.

(** C2: a reference that already carries an entitlement set is a fixed
    point: it is returned as it is, whatever the inner type supports
    now, and its inner type is not visited: the function calls itself on
    nothing, and a run with room for the outermost call only returns. *)
Theorem ConvertToEntitledType_authorized_fixed_point
  (kind : EntitlementSetKind) (entitlements : EntitlementOrderedSet)
  (inner : SemaType) :
  let t := ReferenceType (EntitlementSetAccess kind entitlements) inner in
  convert t = t /\
  bounded 1 t = Some t /\
  ~ exists t', calls t t'.
Proof.
  cbv zeta. repeat split.
  intros [t' H]. inversion H.
Qed.

(** C3: migrating a migrated type changes nothing, the supported
    entitlements being answered alike in both runs. *)
Theorem ConvertToEntitledType_idempotent (t : SemaType) :
  convert (convert t) = convert t.
Proof.
  induction t as [a ty IH | ty IH | ty IH | ty IH | ty IH n | k IHk v IHv | id];
    try (cbn; congruence).
  destruct a as [|kind s]; [|reflexivity].
  rewrite convert_unauthorized.
  destruct (entitled (convert ty)) as [|kind s] eqn:Hauth.
  - rewrite convert_unauthorized, IH, Hauth. reflexivity.
  - reflexivity.
Qed.

Lemma authorizations_kept_or_entitled (t : SemaType) :
  Forall2 keptOrEntitled (authorizations t) (authorizations (convert t)).
Proof.
  assert (Hrefl : forall l, Forall2 keptOrEntitled l l).
  { induction l; constructor; [left; reflexivity | assumption]. }
  induction t as [a ty IH | ty IH | ty IH | ty IH | ty IH n | k IHk v IHv | id];
    cbn [authorizations]; try exact IH.
  - destruct a as [|kind s].
    + rewrite convert_unauthorized. cbn [authorizations].
      constructor; [apply entitled_kept_or_entitled | exact IH].
    + apply Hrefl.
  - cbn. apply Forall2_app; assumption.
  - constructor.
Qed.

Lemma keptOrEntitled_well_formed before after :
  keptOrEntitled before after ->
  accessWellFormed before -> accessWellFormed after.
Proof.
  intros [-> | [_ (s & -> & Hs)]] Hwf; [exact Hwf | exact Hs].
Qed.

(** The migration keeps the invariant of the data model: when no
    entitlement set of the input is empty, none of the output is. *)
Lemma ConvertToEntitledType_well_formed (t : SemaType) :
  Forall accessWellFormed (authorizations t) ->
  Forall accessWellFormed (authorizations (convert t)).
Proof.
  pose proof (authorizations_kept_or_entitled t) as H.
  induction H as [|before after l l' Hstep _ IH]; intros Hwf.
  - constructor.
  - inversion Hwf; subst. constructor.
    + eapply keptOrEntitled_well_formed; eassumption.
    + apply IH. assumption.
Qed.

(** C4: place by place, an authorization of the migrated type is the
    one the input had there, or a newly built one that replaces an
    unauthorized access by a conjunction of at least one entitlement. *)
Theorem ConvertToEntitledType_introduces_nonempty_sets (t : SemaType) :
  Forall2 keptOrEntitled (authorizations t) (authorizations (convert t)).
Proof. exact (authorizations_kept_or_entitled t). Qed.

(** C5: optionals, capabilities, arrays and dictionaries are rebuilt
    around their migrated components, a constant-sized array keeping its
    size. *)
Theorem ConvertToEntitledType_containers
  (inner borrowType elem key value : SemaType) (size : Z) :
  convert (OptionalType inner) = OptionalType (convert inner) /\
  convert (CapabilityType borrowType) = CapabilityType (convert borrowType) /\
  convert (VariableSizedType elem) = VariableSizedType (convert elem) /\
  convert (ConstantSizedType elem size) =
    ConstantSizedType (convert elem) size /\
  convert (DictionaryType key value) =
    DictionaryType (convert key) (convert value).
Proof. repeat split. Qed.

(** C6: a leaf type is returned unchanged. *)
Theorem ConvertToEntitledType_leaf (id : TypeID) :
  convert (LeafType id) = LeafType id.
Proof. reflexivity. Qed.

(** ** Termination *)

Lemma calls_component t t' : calls t t' -> In t' (components t).
Proof. destruct 1; cbn; auto. Qed.

Lemma calls_depth t t' : calls t t' -> (depth t' < depth t)%nat.
Proof. destruct 1; cbn [depth]; lia. Qed.

Lemma calls_well_founded : well_founded (fun t' t => calls t t').
Proof.
  apply (well_founded_lt_compat _ depth). intros t' t. apply calls_depth.
Qed.

Lemma bounded_enough (stack : nat) :
  forall t, (depth t < stack)%nat -> bounded stack t = Some (convert t).
Proof.
  induction stack as [|stack IH]; intros t Hd; [lia|].
  destruct t as [a ty | ty | ty | ty | ty n | k v | id];
    cbn [depth] in Hd; cbn [ConvertToEntitledType_bounded];
    try rewrite (IH ty) by lia; try reflexivity.
  - destruct a; reflexivity.
  - rewrite (IH k), (IH v) by lia. reflexivity.
Qed.

(** C7: the function is total.  Its recursive calls are on immediate
    components of the argument, so the call relation is well founded,
    and on every type a run whose stack exceeds the nesting depth of the
    type returns a result, the one the structural definition gives,
    without failing. *)
Theorem ConvertToEntitledType_total :
  (forall t t', calls t t' ->
     In t' (components t) /\ (depth t' < depth t)%nat) /\
  well_founded (fun t' t => calls t t') /\
  (forall t (spare : nat),
     bounded (S (depth t) + spare) t = Some (convert t)).
Proof.
  split; [|split].
  - intros t t' H. split; [apply calls_component | apply calls_depth]; exact H.
  - exact calls_well_founded.
  - intros t spare. apply bounded_enough. lia.
Qed.

(** C9: the migrated type has the variant of its input (with the size,
    for a constant-sized array, and the identity, for a leaf), and the
    same tree once authorizations are blanked out: only authorizations
    change, at any depth. *)
Theorem ConvertToEntitledType_preserves_shape (t : SemaType) :
  variantOf (convert t) = variantOf t /\
  eraseAuthorization (convert t) = eraseAuthorization t.
Proof.
  split.
  - destruct t as [[|kind s] ty | | | | | |]; reflexivity.
  - induction t as [a ty IH | ty IH | ty IH | ty IH | ty IH n | k IHk v IHv | id];
      try (cbn; congruence).
    destruct a as [|kind s]; [|reflexivity].
    rewrite convert_unauthorized. cbn [eraseAuthorization]. now rewrite IH.
Qed.

End TypeMigrator.

(* ================================================================== *)
(** * Properties of [strconv.FormatInt] in base ten                    *)
(* ================================================================== *)

Section FormatInt.
Import strconv.

Local Ltac digit_cases d :=
  let H := fresh in
  assert (H : d = 0 \/ d = 1 \/ d = 2 \/ d = 3 \/ d = 4 \/
              d = 5 \/ d = 6 \/ d = 7 \/ d = 8 \/ d = 9) by lia;
  repeat (destruct H as [H | H]; [rewrite H | ]); try rewrite H.

Lemma dcons_string d rest :
  0 <= d <= 9 ->
  NilEmpty.string_of_uint (dcons d rest) =
  String (digit d) (NilEmpty.string_of_uint rest).
Proof. intros Hd. digit_cases d; reflexivity. Qed.

Lemma dcons_of_lu d rest :
  0 <= d <= 9 ->
  Unsigned.of_lu (dcons d rest) = (Z.to_N d + 10 * Unsigned.of_lu rest)%N.
Proof. intros Hd. digit_cases d; reflexivity. Qed.

Lemma dcons_revapp d rest acc :
  0 <= d <= 9 ->
  Decimal.revapp (dcons d rest) acc = Decimal.revapp rest (dcons d acc).
Proof. intros Hd. digit_cases d; reflexivity. Qed.

Lemma dcons_unorm d rest :
  1 <= d <= 9 -> Decimal.unorm (dcons d rest) = dcons d rest.
Proof. intros Hd. digit_cases d; reflexivity || lia. Qed.

Lemma geb_ten u : (u >=? 10) = true -> 10 <= u.
Proof. rewrite Z.geb_leb. apply Z.leb_le. Qed.

Lemma ltb_ten u : (u >=? 10) = false -> u < 10.
Proof. rewrite Z.geb_leb. apply Z.leb_gt. Qed.

Lemma littleEndian_string rounds :
  forall u acc, 0 <= u ->
  NilEmpty.string_of_uint (Decimal.revapp (littleEndian rounds u) acc) =
  formatBits rounds u 10 (NilEmpty.string_of_uint acc).
Proof.
  induction rounds as [|rounds IH]; intros u acc Hu; [reflexivity|].
  cbn [littleEndian formatBits].
  destruct (u >=? 10) eqn:Hge.
  - apply geb_ten in Hge.
    assert (0 <= u mod 10 <= 9) by (pose proof (Z.mod_pos_bound u 10); lia).
    rewrite dcons_revapp, IH, dcons_string by (auto; apply Z.div_pos; lia).
    reflexivity.
  - apply ltb_ten in Hge.
    rewrite dcons_revapp by lia. cbn [Decimal.revapp].
    apply dcons_string; lia.
Qed.

Lemma littleEndian_value rounds :
  forall u, 0 <= u < 10 ^ Z.of_nat rounds ->
  Unsigned.of_lu (littleEndian rounds u) = Z.to_N u.
Proof.
  induction rounds as [|rounds IH]; intros u Hu.
  - cbn in Hu. assert (u = 0) by lia. subst u. reflexivity.
  - cbn [littleEndian].
    rewrite Nat2Z.inj_succ, Z.pow_succ_r in Hu by lia.
    destruct (u >=? 10) eqn:Hge.
    + apply geb_ten in Hge.
      assert (0 <= u mod 10 <= 9) by (pose proof (Z.mod_pos_bound u 10); lia).
      assert (0 <= u / 10 < 10 ^ Z.of_nat rounds).
      { split; [apply Z.div_pos; lia | apply Z.div_lt_upper_bound; lia]. }
      rewrite dcons_of_lu, IH by assumption.
      rewrite (Z.div_mod u 10) at 3 by lia.
      rewrite Z2N.inj_add, Z2N.inj_mul by lia. reflexivity || lia.
    + apply ltb_ten in Hge.
      rewrite dcons_of_lu by lia. cbn [Unsigned.of_lu]. lia.
Qed.

Lemma littleEndian_normal rounds :
  forall u acc, 0 < u < 10 ^ Z.of_nat rounds ->
  Decimal.unorm (Decimal.revapp (littleEndian rounds u) acc) =
  Decimal.revapp (littleEndian rounds u) acc.
Proof.
  induction rounds as [|rounds IH]; intros u acc Hu; [cbn in Hu; lia|].
  cbn [littleEndian].
  rewrite Nat2Z.inj_succ, Z.pow_succ_r in Hu by lia.
  destruct (u >=? 10) eqn:Hge.
  - apply geb_ten in Hge.
    assert (0 <= u mod 10 <= 9) by (pose proof (Z.mod_pos_bound u 10); lia).
    rewrite dcons_revapp by assumption. apply IH.
    split; [apply Z.div_str_pos; lia | apply Z.div_lt_upper_bound; lia].
  - apply ltb_ten in Hge.
    rewrite dcons_revapp by lia. cbn [Decimal.revapp].
    apply dcons_unorm. lia.
Qed.

(** The loop prints a positive number as the library does. *)
Lemma formatBits_decimal rounds u :
  0 < u < 10 ^ Z.of_nat rounds ->
  formatBits rounds u 10 "" = NilEmpty.string_of_uint (N.to_uint (Z.to_N u)).
Proof.
  intros Hu.
  rewrite <- (littleEndian_value rounds u) by lia.
  rewrite <- Unsigned.of_lu_rev.
  change (Pos.of_uint (Decimal.rev (littleEndian rounds u)))
    with (N.of_uint (Decimal.rev (littleEndian rounds u))).
  rewrite DecimalN.Unsigned.to_of.
  unfold Decimal.rev. rewrite littleEndian_normal by assumption.
  rewrite littleEndian_string by lia. reflexivity.
Qed.

(** [FormatInt(i, 10)] is the decimal numeral of [i]. *)
Lemma FormatInt_decimal i :
  - 10 ^ 65 < i < 10 ^ 65 -> FormatInt i 10 = ast.decimal i.
Proof.
  intros Hi. unfold FormatInt, ast.decimal.
  destruct i as [|p|p].
  - reflexivity.
  - change (Z.pos p <? 0) with false. cbv iota.
    rewrite formatBits_decimal by (change (Z.of_nat 65) with 65; lia).
    reflexivity.
  - change (Z.neg p <? 0) with true. cbv iota.
    change (- Z.neg p) with (Z.pos p).
    rewrite formatBits_decimal by (change (Z.of_nat 65) with 65; lia).
    reflexivity.
Qed.

End FormatInt.

(* ================================================================== *)
(** * Properties of [PrimitiveAccess.String]                           *)
(* ================================================================== *)

Section StringerProperties.
Import ast.

Local Open Scope string_scope.

Variable bits : Z.
Hypothesis bits_range : 8 <= bits < 64.

Lemma two_bits_bounds : 256 <= 2 ^ bits <= 2 ^ 63.
Proof.
  split.
  - change 256 with (2 ^ 8). apply Z.pow_le_mono_r; lia.
  - apply Z.pow_le_mono_r; lia.
Qed.

Lemma PrimitiveAccess_small x : 0 <= x < 256 -> PrimitiveAccess bits x = x.
Proof.
  intros Hx. unfold PrimitiveAccess. apply Z.mod_small.
  pose proof two_bits_bounds. lia.
Qed.

Lemma int64_small i : inRange bits i -> int64 i = i.
Proof.
  unfold inRange, int64. intros Hi. pose proof two_bits_bounds as Hb.
  assert (H63 : 2 ^ 63 = 9223372036854775808) by reflexivity.
  assert (H64 : 2 ^ 64 = 18446744073709551616) by reflexivity.
  rewrite Z.mod_small; lia.
Qed.

Lemma String_named i :
  0 <= i < 7 ->
  PrimitiveAccess_String bits i =
  match index _PrimitiveAccess_index i, index _PrimitiveAccess_index (i + 1) with
  | Some lo, Some hi => slice _PrimitiveAccess_name lo hi
  | _, _ => None
  end.
Proof.
  intros Hi. unfold PrimitiveAccess_String.
  rewrite !PrimitiveAccess_small by (cbn; lia).
  destruct (i >=? _) eqn:Hge; [|reflexivity].
  rewrite Z.geb_leb in Hge. apply Z.leb_le in Hge. cbn in Hge. lia.
Qed.

Lemma String_numbered i :
  7 <= i < 2 ^ bits ->
  PrimitiveAccess_String bits i =
  Some ("PrimitiveAccess(" ++ decimal i ++ ")").
Proof.
  intros Hi. unfold PrimitiveAccess_String.
  rewrite PrimitiveAccess_small by (cbn; lia).
  destruct (i >=? _) eqn:Hge.
  - rewrite int64_small by (unfold inRange; lia).
    rewrite FormatInt_decimal; [reflexivity|].
    pose proof two_bits_bounds.
    assert (2 ^ 63 < 10 ^ 65) by reflexivity. lia.
  - rewrite Z.geb_leb in Hge. apply Z.leb_gt in Hge. cbn in Hge. lia.
Qed.

(** C10: on every value of the type the method returns a string and no
    index or slice leaves its bounds: each of the seven constants prints
    as its name, and every other value [i], which is at least seven,
    prints as [PrimitiveAccess(i)] with [i] in decimal. *)
Theorem PrimitiveAccess_String_total :
  PrimitiveAccess_String bits AccessNotSpecified = Some "AccessNotSpecified" /\
  PrimitiveAccess_String bits AccessNone = Some "AccessNone" /\
  PrimitiveAccess_String bits AccessSelf = Some "AccessSelf" /\
  PrimitiveAccess_String bits AccessContract = Some "AccessContract" /\
  PrimitiveAccess_String bits AccessAccount = Some "AccessAccount" /\
  PrimitiveAccess_String bits AccessAll = Some "AccessAll" /\
  PrimitiveAccess_String bits AccessPubSettableLegacy =
    Some "AccessPubSettableLegacy" /\
  (forall i, 7 <= i < 2 ^ bits ->
     PrimitiveAccess_String bits i =
     Some ("PrimitiveAccess(" ++ decimal i ++ ")")) /\
  (forall i, inRange bits i -> PrimitiveAccess_String bits i <> None).
Proof.
  repeat match goal with
         | |- PrimitiveAccess_String _ _ = _ /\ _ =>
             split; [rewrite String_named by (cbv; intuition discriminate);
                     reflexivity|]
         end.
  split; [exact String_numbered|].
  intros i Hi. unfold inRange in Hi.
  destruct (Z_lt_le_dec i 7) as [Hlt | Hge].
  - rewrite String_named by lia.
    assert (H : i = 0 \/ i = 1 \/ i = 2 \/ i = 3 \/ i = 4 \/ i = 5 \/ i = 6)
      by lia.
    repeat (destruct H as [H | H]; [subst i; discriminate|]).
    subst i; discriminate.
  - rewrite String_numbered by lia. discriminate.
Qed.

End StringerProperties.

(** At 64 bits the conversion [int64(i)] changes the sign of the upper
    half of the range, which is why the width is taken below 64. *)
Example PrimitiveAccess_String_64_bits :
  ast.PrimitiveAccess_String 64 (2 ^ 63) =
  Some "PrimitiveAccess(-9223372036854775808)"%string.
Proof. vm_compute. reflexivity. Qed.

(* ================================================================== *)
(** * Properties of the value migrator                                 *)
(* ================================================================== *)

Section ValueMigrator.
Import sema interpreter entitlements.

Variable SupportedEntitlements : SemaType -> option EntitlementOrderedSet.

Local Abbreviation convert := (ConvertToEntitledType SupportedEntitlements).
Local Abbreviation Migrate := (entitlements.Migrate SupportedEntitlements).

(** The walk at a reference does not consult the identity table. *)
Lemma walk_reference converter target authorization declaredType memo :
  ConvertValueToEntitlements converter
    (Reference target authorization declaredType) memo =
  match converter declaredType with
  | ReferenceType authorization' _ =>
      Ok (Reference target authorization' declaredType, memo)
  | _ => Err ValueShapeMismatch
  end.
Proof.
  cbn [ConvertValueToEntitlements].
  destruct (converter declaredType); reflexivity.
Qed.

(** A reference declared with a reference type is always migrated. *)
Lemma Migrate_reference_succeeds mig target authorization auth inner :
  exists authorization',
    Migrate mig (Reference target authorization (ReferenceType auth inner)) =
    Ok (Reference target authorization' (ReferenceType auth inner),
        {| migrated := migrated (Interpreter_ mig) |}).
Proof.
  unfold entitlements.Migrate. rewrite walk_reference.
  destruct auth as [|kind s].
  - rewrite convert_unauthorized. eexists. reflexivity.
  - rewrite convert_authorized. eexists. reflexivity.
Qed.

(** C8: the value [Migrate] returns for a reference is a reference to
    the same target, with the same declared type; its authorization is
    the one of the declared type once converted by
    [ConvertToEntitledType]. *)
Theorem Migrate_reference_frame
  mig target authorization declaredType newValue inter' :
  Migrate mig (Reference target authorization declaredType) =
    Ok (newValue, inter') ->
  exists authorization' inner',
    convert declaredType = ReferenceType authorization' inner' /\
    newValue = Reference target authorization' declaredType.
Proof.
  unfold entitlements.Migrate. rewrite walk_reference.
  destruct (convert declaredType) as [a' inner' | | | | | |] eqn:Hconv;
    try discriminate.
  intros H. injection H as <- _. exists a', inner'. split; reflexivity.
Qed.

End ValueMigrator.

(* ================================================================== *)
(** * The scenarios of the specification, run on the model             *)
(* ================================================================== *)

Section Scenarios.
Import sema interpreter entitlements demo.

Local Abbreviation convert := (ConvertToEntitledType supported).

Example scenario_reference :
  convert (ReferenceType UnauthorizedAccess T) = ReferenceType E1E2 T.
Proof. reflexivity. Qed.

Example scenario_capability :
  convert (CapabilityType refT) = CapabilityType (ReferenceType E1E2 T).
Proof. reflexivity. Qed.

Example scenario_array :
  convert (VariableSizedType refT) = VariableSizedType (ReferenceType E1E2 T).
Proof. reflexivity. Qed.

Example scenario_dictionary :
  convert (DictionaryType K refT) = DictionaryType K (ReferenceType E1E2 T).
Proof. reflexivity. Qed.

Example scenario_empty_set :
  convert (ReferenceType UnauthorizedAccess U) =
  ReferenceType UnauthorizedAccess U.
Proof. reflexivity. Qed.

Example scenario_not_supporting :
  convert (ReferenceType UnauthorizedAccess K) =
  ReferenceType UnauthorizedAccess K.
Proof. reflexivity. Qed.

Example scenario_nested_reference :
  convert (ReferenceType UnauthorizedAccess (OptionalType refT)) =
  ReferenceType UnauthorizedAccess (OptionalType (ReferenceType E1E2 T)).
Proof. reflexivity. Qed.

Example scenario_resource_field :
  let R := Composite Resource
             [("ref"%string, Reference 2 UnauthorizedAccess refT)] 1 in
  let R' := Composite Resource [("ref"%string, Reference 2 E1E2 refT)] 1 in
  Migrate supported mig R = Ok (R', {| migrated := [(1, R')] |}).
Proof. reflexivity. Qed.

Example scenario_shape_mismatch :
  Migrate supported mig (Reference 2 UnauthorizedAccess T) =
  Err ValueShapeMismatch.
Proof. reflexivity. Qed.

Example scenario_bounded_run :
  ConvertToEntitledType_bounded supported 1 (OptionalType refT) = None /\
  ConvertToEntitledType_bounded supported 3 (OptionalType refT) =
  Some (OptionalType (ReferenceType E1E2 T)).
Proof. split; reflexivity. Qed.

End Scenarios.

(* ================================================================== *)
(** * Instances of the conditional statements                          *)
(* ================================================================== *)

Lemma ConvertToEntitledType_total_refT :
  In demo.T (sema.components demo.refT) /\
  (sema.depth demo.T < sema.depth demo.refT)%nat.
Proof.
  apply (proj1 (ConvertToEntitledType_total demo.supported) demo.refT demo.T).
  constructor.
Defined.

Lemma Migrate_reference_frame_refT :
  entitlements.Migrate demo.supported demo.mig
    (interpreter.Reference 7 sema.UnauthorizedAccess demo.refT) =
  interpreter.Ok
    (interpreter.Reference 7 demo.E1E2 demo.refT, demo.emptyInterpreter) /\
  exists authorization' inner',
    entitlements.ConvertToEntitledType demo.supported demo.refT =
      sema.ReferenceType authorization' inner' /\
    interpreter.Reference 7 demo.E1E2 demo.refT =
      interpreter.Reference 7 authorization' demo.refT.
Proof.
  split; [reflexivity|].
  apply (Migrate_reference_frame demo.supported demo.mig 7
           sema.UnauthorizedAccess demo.refT
           (interpreter.Reference 7 demo.E1E2 demo.refT)
           demo.emptyInterpreter).
  reflexivity.
Defined.

Lemma PrimitiveAccess_String_uint8 :
  8 <= 8 < 64 /\
  ast.PrimitiveAccess_String 8 ast.AccessAll = Some "AccessAll"%string /\
  ast.PrimitiveAccess_String 8 200 = Some "PrimitiveAccess(200)"%string /\
  ast.PrimitiveAccess_String 8 255 <> None.
Proof.
  assert (H : 8 <= 8 < 64) by lia.
  assert (H200 : 7 <= 200 < 2 ^ 8) by (change (2 ^ 8) with 256; lia).
  assert (H255 : ast.inRange 8 255)
    by (unfold ast.inRange; change (2 ^ 8) with 256; lia).
  split; [exact H|].
  destruct (PrimitiveAccess_String_total 8 H)
    as (_ & _ & _ & _ & _ & Hall & _ & Hnum & Htot).
  split; [exact Hall|].
  split; [exact (Hnum 200 H200) | exact (Htot 255 H255)].
Defined.

(* ================================================================== *)
(** * Further properties of the type migrator                          *)
(* ================================================================== *)

Section TypeMigratorCompleteness.
Import sema entitlements.

Variable SupportedEntitlements : SemaType -> option EntitlementOrderedSet.

Local Abbreviation convert := (ConvertToEntitledType SupportedEntitlements).
Local Abbreviation entitled := (entitledAuthorization SupportedEntitlements).
Local Abbreviation bounded :=
  (ConvertToEntitledType_bounded SupportedEntitlements).
Local Abbreviation done := (fullyEntitled SupportedEntitlements).

Lemma isUnauthorized_true a : isUnauthorized a = true <-> a = UnauthorizedAccess.
Proof. destruct a; cbn; split; congruence. Qed.

Lemma done_unauthorized ty :
  done (ReferenceType UnauthorizedAccess ty) = true <->
  done ty = true /\ entitled ty = UnauthorizedAccess.
Proof.
  cbn [fullyEntitled]. split.
  - intros H. apply andb_true_iff in H as [Hty Hauth].
    split; [exact Hty | apply isUnauthorized_true; exact Hauth].
  - intros [Hty Hauth]. apply andb_true_iff.
    split; [exact Hty | apply isUnauthorized_true; exact Hauth].
Qed.

Lemma convert_done (t : SemaType) : done (convert t) = true.
Proof.
  induction t as [a ty IH | ty IH | ty IH | ty IH | ty IH n | k IHk v IHv | id];
    try exact IH; try reflexivity.
  - destruct a as [|kind s]; [|reflexivity].
    rewrite convert_unauthorized.
    destruct (entitled (convert ty)) as [|kind s] eqn:Hauth; [|reflexivity].
    apply done_unauthorized. split; assumption.
  - cbn. rewrite IHk, IHv. reflexivity.
Qed.

Lemma convert_unchanged_iff (t : SemaType) : convert t = t <-> done t = true.
Proof.
  induction t as [a ty IH | ty IH | ty IH | ty IH | ty IH n | k IHk v IHv | id];
    try (cbn; split; intros H; [injection H as H; apply IH; exact H
                                | apply IH in H; rewrite H; reflexivity]).
  - destruct a as [|kind s]; [|split; reflexivity].
    rewrite convert_unauthorized. split.
    + intros H. injection H as Hauth Hty. rewrite Hty in Hauth.
      apply done_unauthorized. split; [apply IH|]; assumption.
    + intros H. apply done_unauthorized in H as [Hty Hauth].
      apply IH in Hty. rewrite Hty, Hauth. reflexivity.
  - cbn. split.
    + intros H. injection H as Hk Hv. apply andb_true_iff.
      split; [apply IHk | apply IHv]; assumption.
    + intros H. apply andb_true_iff in H as [Hk Hv].
      apply IHk in Hk. apply IHv in Hv. rewrite Hk, Hv. reflexivity.
  - split; reflexivity.
Qed.

Lemma bounded_exact (stack : nat) :
  forall t,
    bounded stack t =
    if (callDepth t <? stack)%nat then Some (convert t) else None.
Proof.
  induction stack as [|stack IH]; intros t; [reflexivity|].
  destruct t as [a ty | ty | ty | ty | ty n | k v | id];
    cbn [ConvertToEntitledType_bounded callDepth];
    try rewrite (IH ty); try reflexivity.
  - destruct a as [|kind s]; [|reflexivity].
    change (S (callDepth ty) <? S stack)%nat with (callDepth ty <? stack)%nat.
    destruct (callDepth ty <? stack)%nat; reflexivity.
  - change (S (callDepth ty) <? S stack)%nat with (callDepth ty <? stack)%nat.
    destruct (callDepth ty <? stack)%nat; reflexivity.
  - change (S (callDepth ty) <? S stack)%nat with (callDepth ty <? stack)%nat.
    destruct (callDepth ty <? stack)%nat; reflexivity.
  - change (S (callDepth ty) <? S stack)%nat with (callDepth ty <? stack)%nat.
    destruct (callDepth ty <? stack)%nat; reflexivity.
  - change (S (callDepth ty) <? S stack)%nat with (callDepth ty <? stack)%nat.
    destruct (callDepth ty <? stack)%nat; reflexivity.
  - rewrite (IH k), (IH v).
    change (S (Nat.max (callDepth k) (callDepth v)) <? S stack)%nat
      with (Nat.max (callDepth k) (callDepth v) <? stack)%nat.
    destruct (callDepth k <? stack)%nat eqn:Hk;
      destruct (callDepth v <? stack)%nat eqn:Hv;
      destruct (Nat.max (callDepth k) (callDepth v) <? stack)%nat eqn:Hm;
      try reflexivity;
      repeat match goal with
             | H : (_ <? _)%nat = true |- _ => apply Nat.ltb_lt in H
             | H : (_ <? _)%nat = false |- _ => apply Nat.ltb_ge in H
             end; lia.
Qed.

(** X1: the migrated type is fully entitled: every unauthorized
    reference the function reaches in its own output refers to a type
    that supports no entitlement. *)
Theorem ConvertToEntitledType_fully_entitled (t : SemaType) :
  fullyEntitled SupportedEntitlements (convert t) = true.
Proof. exact (convert_done t). Qed.

(** X2: the function returns its argument unchanged exactly on the
    fully entitled types. *)
Theorem ConvertToEntitledType_unchanged_iff (t : SemaType) :
  convert t = t <-> fullyEntitled SupportedEntitlements t = true.
Proof. exact (convert_unchanged_iff t). Qed.

(** X3: the rule of the function's own documentation,
    [&T ---> auth(Entitlements(T)) &T], with [T] itself unchanged and
    queried, holds for every inner type that is fully entitled. *)
Theorem ConvertToEntitledType_documented_rule (T : SemaType) :
  fullyEntitled SupportedEntitlements T = true ->
  convert (ReferenceType UnauthorizedAccess T) =
  ReferenceType
    match SupportedEntitlements T with
    | Some (e :: s) => EntitlementSetAccess Conjunction (e :: s)
    | _ => UnauthorizedAccess
    end
    T.
Proof.
  intros HT. apply convert_unchanged_iff in HT.
  rewrite convert_unauthorized, HT, entitled_cases. reflexivity.
Qed.

(** X4: when no type supports an entitlement (the interface is not
    implemented, or the supported set is empty), the migration changes
    no type. *)
Theorem ConvertToEntitledType_no_entitlements :
  (forall u : SemaType,
     SupportedEntitlements u = None \/ SupportedEntitlements u = Some []) ->
  forall t : SemaType, ConvertToEntitledType SupportedEntitlements t = t.
Proof.
  intros Hnone t. apply convert_unchanged_iff.
  induction t as [a ty IH | ty IH | ty IH | ty IH | ty IH n | k IHk v IHv | id];
    try exact IH; try reflexivity.
  - destruct a as [|kind s]; [|reflexivity].
    apply done_unauthorized. split; [exact IH|].
    unfold entitledAuthorization.
    destruct (Hnone ty) as [-> | ->]; reflexivity.
  - cbn. rewrite IHk, IHv. reflexivity.
Qed.

(** X5: a run with a bounded stack returns exactly when the stack
    exceeds the call depth of its argument, which counts no level below
    an entitled reference; the result is then the one of the unbounded
    function. *)
Theorem ConvertToEntitledType_bounded_exact (stack : nat) (t : SemaType) :
  bounded stack t =
  if (callDepth t <? stack)%nat then Some (convert t) else None.
Proof. exact (bounded_exact stack t). Qed.

Lemma convert_twice (t : SemaType) : convert (convert t) = convert t.
Proof. apply convert_unchanged_iff, convert_done. Qed.

(** X8: migrating a component first and the enclosing type afterwards
    gives what migrating the enclosing type at once gives, for every
    arm of the switch that descends: an unauthorized reference, an
    optional, a capability, both arrays and a dictionary. *)
Theorem ConvertToEntitledType_component_first
  (inner key value : SemaType) (size : Z) :
  convert (ReferenceType UnauthorizedAccess (convert inner)) =
    convert (ReferenceType UnauthorizedAccess inner) /\
  convert (OptionalType (convert inner)) = convert (OptionalType inner) /\
  convert (CapabilityType (convert inner)) = convert (CapabilityType inner) /\
  convert (VariableSizedType (convert inner)) =
    convert (VariableSizedType inner) /\
  convert (ConstantSizedType (convert inner) size) =
    convert (ConstantSizedType inner size) /\
  convert (DictionaryType (convert key) (convert value)) =
    convert (DictionaryType key value).
Proof.
  rewrite !convert_unauthorized. cbn [ConvertToEntitledType].
  rewrite !convert_twice. repeat split.
Qed.

End TypeMigratorCompleteness.

Lemma ConvertToEntitledType_documented_rule_T :
  entitlements.ConvertToEntitledType demo.supported demo.refT =
  sema.ReferenceType demo.E1E2 demo.T.
Proof.
  apply (ConvertToEntitledType_documented_rule demo.supported demo.T).
  reflexivity.
Defined.

Lemma ConvertToEntitledType_no_entitlements_refT :
  entitlements.ConvertToEntitledType demo.noEntitlements
    (sema.DictionaryType demo.K demo.refT) =
  sema.DictionaryType demo.K demo.refT.
Proof.
  apply (ConvertToEntitledType_no_entitlements demo.noEntitlements).
  intros u. left. reflexivity.
Defined.

(* ================================================================== *)
(** * Further properties of [PrimitiveAccess.String]                   *)
(* ================================================================== *)

Section StringerAnyWidth.
Import ast.

(** Any unsigned integer type of Go of at least eight bits, the 64-bit
    ones included. *)
Variable bits : Z.
Hypothesis bits_range : 8 <= bits <= 64.

Lemma two_bits_wide : 256 <= 2 ^ bits <= 2 ^ 64.
Proof.
  split.
  - change 256 with (2 ^ 8). apply Z.pow_le_mono_r; lia.
  - apply Z.pow_le_mono_r; lia.
Qed.

Lemma PrimitiveAccess_small_wide x :
  0 <= x < 256 -> PrimitiveAccess bits x = x.
Proof.
  intros Hx. unfold PrimitiveAccess. apply Z.mod_small.
  pose proof two_bits_wide. lia.
Qed.

Lemma int64_value i :
  0 <= i < 2 ^ 64 -> int64 i = if i <? 2 ^ 63 then i else i - 2 ^ 64.
Proof.
  intros Hi. unfold int64.
  assert (H63 : 2 ^ 63 = 9223372036854775808) by reflexivity.
  assert (H64 : 2 ^ 64 = 18446744073709551616) by reflexivity.
  rewrite H63, H64 in *.
  destruct (i <? 9223372036854775808) eqn:Hlt.
  - apply Z.ltb_lt in Hlt. rewrite Z.mod_small; lia.
  - apply Z.ltb_ge in Hlt.
    replace (i + 9223372036854775808)
      with (i - 9223372036854775808 + 1 * 18446744073709551616) by lia.
    rewrite Z.mod_add by lia. rewrite Z.mod_small; lia.
Qed.

Lemma String_named_wide i :
  0 <= i < 7 ->
  PrimitiveAccess_String bits i =
  match index _PrimitiveAccess_index i, index _PrimitiveAccess_index (i + 1) with
  | Some lo, Some hi => slice _PrimitiveAccess_name lo hi
  | _, _ => None
  end.
Proof.
  intros Hi. unfold PrimitiveAccess_String.
  rewrite !PrimitiveAccess_small_wide by (cbn; lia).
  destruct (i >=? _) eqn:Hge; [|reflexivity].
  rewrite Z.geb_leb in Hge. apply Z.leb_le in Hge. cbn in Hge. lia.
Qed.

Lemma String_named_head i :
  0 <= i < 7 ->
  exists rest, PrimitiveAccess_String bits i = Some (String "A"%char rest).
Proof.
  intros Hi. rewrite String_named_wide by assumption.
  assert (H : i = 0 \/ i = 1 \/ i = 2 \/ i = 3 \/ i = 4 \/ i = 5 \/ i = 6)
    by lia.
  repeat (destruct H as [H | H]; [subst i; eexists; vm_compute; reflexivity|]).
  subst i; eexists; vm_compute; reflexivity.
Qed.

Lemma String_numbered_wide i :
  7 <= i < 2 ^ bits ->
  PrimitiveAccess_String bits i =
  Some ("PrimitiveAccess(" ++
        decimal (if i <? 2 ^ 63 then i else i - 2 ^ 64)%Z ++ ")")%string.
Proof.
  intros Hi. pose proof two_bits_wide as Hb.
  unfold PrimitiveAccess_String.
  rewrite PrimitiveAccess_small_wide by (cbn; lia).
  destruct (i >=? _) eqn:Hge.
  - rewrite <- int64_value by lia.
    rewrite FormatInt_decimal; [reflexivity|].
    unfold int64.
    pose proof (Z.mod_pos_bound (i + 2 ^ 63) (2 ^ 64) eq_refl).
    assert (2 ^ 63 < 10 ^ 65) by reflexivity.
    assert (2 ^ 64 = 2 ^ 63 + 2 ^ 63) by reflexivity. lia.
  - rewrite Z.geb_leb in Hge. apply Z.leb_gt in Hge. cbn in Hge. lia.
Qed.

Lemma length_append (s t : string) :
  String.length (s ++ t)%string = (String.length s + String.length t)%nat.
Proof. induction s as [|c s IH]; cbn; [reflexivity | now rewrite IH]. Qed.

Lemma append_cancel_r (t : string) :
  forall s1 s2, (s1 ++ t = s2 ++ t)%string -> s1 = s2.
Proof.
  induction s1 as [|c1 s1 IH]; intros [|c2 s2] H; cbn in H.
  - reflexivity.
  - apply (f_equal String.length) in H. cbn in H.
    rewrite length_append in H. lia.
  - apply (f_equal String.length) in H. cbn in H.
    rewrite length_append in H. lia.
  - injection H as -> H. f_equal. apply IH. exact H.
Qed.

Lemma decimal_inj a b : decimal a = decimal b -> a = b.
Proof.
  unfold decimal. intros H. apply DecimalZ.to_int_inj.
  apply (f_equal NilEmpty.int_of_string) in H.
  rewrite !NilEmpty.isi in H. congruence.
Qed.

Lemma names_inj i j :
  0 <= i < 7 -> 0 <= j < 7 ->
  PrimitiveAccess_String bits i = PrimitiveAccess_String bits j -> i = j.
Proof.
  intros Hi Hj. rewrite !String_named_wide by assumption.
  assert (Ei : i = 0 \/ i = 1 \/ i = 2 \/ i = 3 \/ i = 4 \/ i = 5 \/ i = 6)
    by lia.
  assert (Ej : j = 0 \/ j = 1 \/ j = 2 \/ j = 3 \/ j = 4 \/ j = 5 \/ j = 6)
    by lia.
  clear Hi Hj.
  repeat (destruct Ei as [Ei | Ei]); subst i;
    repeat (destruct Ej as [Ej | Ej]); subst j;
    vm_compute; intros H; first [reflexivity | discriminate H].
Qed.

(** X6: on every value of an unsigned type of 8 to 64 bits the method
    returns without leaving the bounds of its table, and a value of
    seven or more prints as [PrimitiveAccess(n)] where [n] is the value
    read as a signed 64-bit number: the value itself below [2^63], and
    the value less [2^64], a negative number, from there on. *)
Theorem PrimitiveAccess_String_any_width :
  (forall i, 7 <= i < 2 ^ bits ->
     PrimitiveAccess_String bits i =
     Some ("PrimitiveAccess(" ++
           decimal (if i <? 2 ^ 63 then i else i - 2 ^ 64)%Z ++ ")")%string) /\
  (forall i, inRange bits i -> PrimitiveAccess_String bits i <> None).
Proof.
  split; [exact String_numbered_wide|].
  intros i Hi. unfold inRange in Hi.
  destruct (Z_lt_le_dec i 7) as [Hlt | Hge].
  - destruct (String_named_head i) as [rest ->]; [lia | discriminate].
  - rewrite String_numbered_wide by lia. discriminate.
Qed.

Lemma String_inj i j :
  inRange bits i -> inRange bits j ->
  PrimitiveAccess_String bits i = PrimitiveAccess_String bits j ->
  i = j.
Proof.
  unfold inRange. intros Hi Hj. pose proof two_bits_wide as Hb.
  destruct (Z_lt_le_dec i 7) as [Hi7 | Hi7];
    destruct (Z_lt_le_dec j 7) as [Hj7 | Hj7].
  - apply names_inj; lia.
  - destruct (String_named_head i) as [rest ->]; [lia|].
    rewrite String_numbered_wide by lia. discriminate.
  - destruct (String_named_head j) as [rest ->]; [lia|].
    rewrite String_numbered_wide by lia. discriminate.
  - rewrite !String_numbered_wide by lia. intros H.
    injection H as H. apply append_cancel_r, decimal_inj in H.
    change (Z.pow_pos 2 63) with (2 ^ 63) in H.
    change (Z.pow_pos 2 64) with (2 ^ 64) in H.
    assert (H64 : 2 ^ 64 = 2 ^ 63 + 2 ^ 63) by reflexivity.
    destruct (i <? 2 ^ 63) eqn:Ei; destruct (j <? 2 ^ 63) eqn:Ej;
      repeat match goal with
             | E : (_ <? _) = true |- _ => apply Z.ltb_lt in E
             | E : (_ <? _) = false |- _ => apply Z.ltb_ge in E
             end; lia.
Qed.

(** X7: the method is injective: two different values of the type never
    print alike. *)
Theorem PrimitiveAccess_String_injective i j :
  inRange bits i -> inRange bits j -> i <> j ->
  PrimitiveAccess_String bits i <> PrimitiveAccess_String bits j.
Proof.
  intros Hi Hj Hne Heq. apply Hne. exact (String_inj i j Hi Hj Heq).
Qed.

End StringerAnyWidth.

Lemma PrimitiveAccess_String_uint64 :
  8 <= 64 <= 64 /\
  ast.PrimitiveAccess_String 64 (2 ^ 64 - 1) =
  Some "PrimitiveAccess(-1)"%string.
Proof.
  assert (H : 8 <= 64 <= 64) by lia.
  split; [exact H|].
  apply (proj1 (PrimitiveAccess_String_any_width 64 H) (2 ^ 64 - 1)).
  vm_compute. split; [discriminate | reflexivity].
Defined.

Lemma PrimitiveAccess_String_injective_uint8 :
  ast.PrimitiveAccess_String 8 ast.AccessAll <>
  ast.PrimitiveAccess_String 8 200.
Proof.
  assert (H : 8 <= 8 <= 64) by lia.
  assert (H5 : ast.inRange 8 ast.AccessAll)
    by (unfold ast.inRange, ast.AccessAll; change (2 ^ 8) with 256; lia).
  assert (H200 : ast.inRange 8 200)
    by (unfold ast.inRange; change (2 ^ 8) with 256; lia).
  apply (PrimitiveAccess_String_injective 8 H ast.AccessAll 200 H5 H200).
  unfold ast.AccessAll. lia.
Defined.
